(** * Incremental ingestion and query service of the local RAG scripts

    A shallow embedding of [ingest.py] (content-hash ledger, batch store,
    ledger persistence) and of [api.py] (the [/query] endpoint and its
    retrieval chain), with the properties the specification states about
    them.

    Conventions.  A Python [str] is a [string] holding the UTF-8 bytes of the
    text, so [.encode("utf-8")] is the identity and lengths coincide with
    Python's on ASCII text.  The dictionary [hash_db] is a [gmap string
    string].  Exceptions are the [Raise] case of [outcome]; the scripts never
    catch one, so a raised exception ends the run. *)

From Stdlib Require Import NArith ZArith Ascii String.
From stdpp Require Import base option list gmap strings fin_maps.
From Equations Require Import Equations.

Set Warnings "-register-all,-clear-no-such-hyp".

Local Open Scope string_scope.
Local Open Scope list_scope.
Local Open Scope nat_scope.

(** ** MD5 ([hashlib.md5], RFC 1321) on 32-bit words *)

Module MD5.
Local Open Scope N_scope.

Definition mask32 : N := 0xffffffff.
Definition add32 (a b : N) : N := (a + b) mod 2 ^ 32.
Definition not32 (a : N) : N := N.lxor a mask32.
Definition rotl32 (x s : N) : N :=
  N.lor (N.land (N.shiftl x s) mask32) (N.shiftr x (32 - s)).

Definition K : list N :=
  [ 0xd76aa478; 0xe8c7b756; 0x242070db; 0xc1bdceee;
    0xf57c0faf; 0x4787c62a; 0xa8304613; 0xfd469501;
    0x698098d8; 0x8b44f7af; 0xffff5bb1; 0x895cd7be;
    0x6b901122; 0xfd987193; 0xa679438e; 0x49b40821;
    0xf61e2562; 0xc040b340; 0x265e5a51; 0xe9b6c7aa;
    0xd62f105d; 0x02441453; 0xd8a1e681; 0xe7d3fbc8;
    0x21e1cde6; 0xc33707d6; 0xf4d50d87; 0x455a14ed;
    0xa9e3e905; 0xfcefa3f8; 0x676f02d9; 0x8d2a4c8a;
    0xfffa3942; 0x8771f681; 0x6d9d6122; 0xfde5380c;
    0xa4beea44; 0x4bdecfa9; 0xf6bb4b60; 0xbebfbc70;
    0x289b7ec6; 0xeaa127fa; 0xd4ef3085; 0x04881d05;
    0xd9d4d039; 0xe6db99e5; 0x1fa27cf8; 0xc4ac5665;
    0xf4292244; 0x432aff97; 0xab9423a7; 0xfc93a039;
    0x655b59c3; 0x8f0ccc92; 0xffeff47d; 0x85845dd1;
    0x6fa87e4f; 0xfe2ce6e0; 0xa3014314; 0x4e0811a1;
    0xf7537e82; 0xbd3af235; 0x2ad7d2bb; 0xeb86d391 ].

Definition shifts : list N :=
  [ 7; 12; 17; 22; 7; 12; 17; 22; 7; 12; 17; 22; 7; 12; 17; 22;
    5; 9; 14; 20; 5; 9; 14; 20; 5; 9; 14; 20; 5; 9; 14; 20;
    4; 11; 16; 23; 4; 11; 16; 23; 4; 11; 16; 23; 4; 11; 16; 23;
    6; 10; 15; 21; 6; 10; 15; 21; 6; 10; 15; 21; 6; 10; 15; 21 ].

Definition bytes_of (s : string) : list N :=
  N_of_ascii <$> list_ascii_of_string s.

(** The [n] low bytes of [x], least significant first. *)
Fixpoint le_bytes (n : nat) (x : N) : list N :=
  match n with
  | O => []
  | S n' => x mod 256 :: le_bytes n' (x / 256)
  end.

Definition pad (msg : list N) : list N :=
  let len := length msg in
  msg ++ [0x80] ++ replicate ((119 - len mod 64) mod 64)%nat 0
      ++ le_bytes 8 (N.of_nat (8 * len) mod 2 ^ 64).

Fixpoint le_words (bs : list N) : list N :=
  match bs with
  | b0 :: b1 :: b2 :: b3 :: rest =>
      (b0 + 256 * (b1 + 256 * (b2 + 256 * b3))) :: le_words rest
  | _ => []
  end.

Fixpoint blocks (fuel : nat) (ws : list N) : list (list N) :=
  match fuel, ws with
  | S fuel', _ :: _ => take 16 ws :: blocks fuel' (drop 16 ws)
  | _, _ => []
  end.

Definition state : Type := N * N * N * N.

Definition round (M : list N) (st : state) (i : nat) : state :=
  let '(a, b, c, d) := st in
  let '(f, g) :=
    if (i <? 16)%nat then (N.lor (N.land b c) (N.land (not32 b) d), i)
    else if (i <? 32)%nat then
      (N.lor (N.land d b) (N.land (not32 d) c), ((5 * i + 1) mod 16)%nat)
    else if (i <? 48)%nat then
      (N.lxor (N.lxor b c) d, ((3 * i + 5) mod 16)%nat)
    else (N.lxor c (N.lor b (not32 d)), ((7 * i) mod 16)%nat) in
  let f' := add32 (add32 (add32 f a) (K !!! i)) (M !!! g) in
  (d, add32 b (rotl32 f' (shifts !!! i)), b, c).

Definition compress (st : state) (M : list N) : state :=
  let '(a0, b0, c0, d0) := st in
  let '(a, b, c, d) := foldl (round M) st (seq 0 64) in
  (add32 a0 a, add32 b0 b, add32 c0 c, add32 d0 d).

Definition init : state := (0x67452301, 0xefcdab89, 0x98badcfe, 0x10325476).

Definition digest (s : string) : list N :=
  let ws := le_words (pad (bytes_of s)) in
  let '(a, b, c, d) := foldl compress init (blocks (length ws) ws) in
  le_bytes 4 a ++ le_bytes 4 b ++ le_bytes 4 c ++ le_bytes 4 d.

Definition hex_digit (n : N) : ascii :=
  ascii_of_N (if n <? 10 then 48 + n else 87 + n).

Fixpoint hex (bs : list N) : string :=
  match bs with
  | [] => ""
  | b :: rest => String (hex_digit (b / 16)) (String (hex_digit (b mod 16)) (hex rest))
  end.

(** [md5(text.encode("utf-8")).hexdigest()] *)
Definition hexdigest (s : string) : string := hex (digest s).
End MD5.

(** ** Text splitter *)

(** The splitter of [ingest.py] is
    [RecursiveCharacterTextSplitter(chunk_size=500, chunk_overlap=50)], a
    class of the [langchain_text_splitters] package.  The ingestion script
    only needs its interface: text in, list of chunk texts out. *)
Class Splitter := split_text : string → list string.

Definition chunk_size : nat := 500.
Definition chunk_overlap : nat := 50.

Module FixedWindow.

Fixpoint string_drop (n : nat) (s : string) : string :=
  match n, s with
  | O, _ => s
  | S n', String _ s' => string_drop n' s'
  | S _, EmptyString => EmptyString
  end.

Lemma length_string_drop n s :
  String.length (string_drop n s) = String.length s - n.
Proof.
  revert s; induction n as [|n IH]; intros [|a s]; simpl; auto with arith.
Qed.

(** Modelled from the spec: the text splitter, which the sources only
    import.  The spec describes a chunk as a bounded-length contiguous
    slice of the document, produced by splitting with a fixed size and a
    fixed overlap: consecutive windows of [size] characters, each starting
    [size - overlap] characters after the previous one, until a window
    reaches the end of the text.  A text that fits in one window is one
    chunk.  With [size ≤ overlap] the windows would not advance; the text
    is then returned unsplit. *)
Equations? split_text (size overlap : nat) (text : string) : list string
  by wf (String.length text) lt :=
  split_text size overlap text with
    decide (String.length text ≤ size ∨ size ≤ overlap) := {
    | left _ := [text];
    | right _ :=
        substring 0 size text
          :: split_text size overlap (string_drop (size - overlap) text) }.
Proof. rewrite length_string_drop. lia. Qed.

(** Follows the spec's words: [ceil((L-O)/(S-O))], on integers. *)
Definition expected_chunks (L S O : Z) : Z := (- ((O - L) / (S - O)))%Z.

Definition splitter : Splitter := split_text chunk_size chunk_overlap.


End FixedWindow.

(** ** The ingestion script, [ingest.py] *)

(** A langchain [Document]: its text and the one metadata key the script
    sets, [metadata["source"]]. *)
Record Document := { page_content : string; source : string }.

#[global] Instance Document_eq_dec : EqDecision Document.
Proof. solve_decision. Defined.

(** What [os.listdir(DATA_DIR)] can name: something that is not a regular
    file, a file [TextLoader] reads, or a file on which [loader.load()]
    raises. *)
Inductive dir_entry :=
| NotAFile
| TextFile (text : string)
| Unreadable.

Inductive error :=
| LoadError (path : string)
| StoreError
| BackendError (what : string)
| KeyError (key : string)
| TypeError.

Inductive outcome (A : Type) :=
| Done (a : A)
| Raise (e : error).
Arguments Done {A} a.
Arguments Raise {A} e.

#[global] Instance outcome_ret : MRet outcome := λ A a, Done a.

#[global] Instance outcome_fmap : FMap outcome := λ A B f m,
  match m with
  | Done a => Done (f a)
  | Raise e => Raise e
  end.

#[global] Instance outcome_bind : MBind outcome := λ A B k m,
  match m with
  | Done a => k a
  | Raise e => Raise e
  end.

(** Everything the script reads or writes: the listing of [DATA_DIR] in the
    order [os.listdir] returns it, the JSON file at [HASH_DB_PATH] ([None]
    when it does not exist) and the records of the Qdrant collection. *)
Record World := {
  DATA_DIR : list (string * dir_entry);
  HASH_DB_PATH : option (gmap string string);
  collection : list Document
}.

(** How the vector store answers the one [add_documents] call of a run: it
    stores the whole batch, or it raises after having stored the first [n]
    documents of it. *)
Inductive store_behaviour :=
| Accepts
| FailsAfter (n : nat).

Definition chunk_hash (c : Document) : string :=
  MD5.hexdigest (page_content c).

(** Lines 21-25. *)
Definition load_hash_db (f : option (gmap string string)) : gmap string string :=
  match f with
  | Some db => db
  | None => ∅
  end.

(** Lines 75-78, the body of [for c in chunks], on the pair
    [(hash_db, new_chunks)]. *)
Definition check_chunk (filename : string)
    (st : gmap string string * list Document) (c : Document)
    : gmap string string * list Document :=
  let '(hash_db, new_chunks) := st in
  match hash_db !! chunk_hash c with
  | Some _ => st
  | None => (<[chunk_hash c := filename]> hash_db, new_chunks ++ [c])
  end.

(** The same body for a chunk that carries its file name, as every chunk
    [split_documents] returns does. *)
Definition visit (st : gmap string string * list Document) (c : Document)
    : gmap string string * list Document :=
  check_chunk (source c) st c.

(** The ledger and the marked chunks after the chunks [cs] have been
    visited, starting from the ledger [db]. *)
Definition recorded (db : gmap string string) (cs : list Document)
    : gmap string string := (foldl visit (db, []) cs).1.

Definition marked (db : gmap string string) (cs : list Document)
    : list Document := (foldl visit (db, []) cs).2.

(** What visiting the chunk [c] marks, once the chunks [pre] have been
    visited from the ledger [db]: [[c]] or nothing. *)
Definition contribution (db : gmap string string) (pre : list Document)
    (c : Document) : list Document := marked (recorded db pre) [c].

Section Ingest.
Context `{Splitter}.

(** Lines 61-70: load, tag with the file name, split. *)
Definition load_and_split (filename text : string) : list Document :=
  (λ t, {| page_content := t; source := filename |}) <$> split_text text.

(** Lines 57-80, the body of [for filename in os.listdir(DATA_DIR)], on
    the pair [(hash_db, all_docs)]. *)
Definition process_entry (st : gmap string string * list Document)
    (e : string * dir_entry) : outcome (gmap string string * list Document) :=
  let '(hash_db, all_docs) := st in
  let '(filename, entry) := e in
  match entry with
  | NotAFile => Done st
  | Unreadable => Raise (LoadError filename)
  | TextFile text =>
      let chunks := load_and_split filename text in
      let '(hash_db', new_chunks) :=
        foldl (check_chunk filename) (hash_db, []) chunks in
      Done (hash_db', all_docs ++ new_chunks)
  end.

Fixpoint scan_files (st : gmap string string * list Document)
    (listing : list (string * dir_entry))
    : outcome (gmap string string * list Document) :=
  match listing with
  | [] => Done st
  | e :: rest => st' ← process_entry st e; scan_files st' rest
  end.

(** Line 84, [vectorstore.add_documents(all_docs)]. *)
Definition add_documents (b : store_behaviour) (docs store : list Document)
    : list Document * outcome unit :=
  match b with
  | Accepts => (store ++ docs, Done tt)
  | FailsAfter n => (store ++ take n docs, Raise StoreError)
  end.

(** The whole script.  Lines 27-52 build the clients and create the
    collection when it is missing; they read and write neither the ledger
    nor the records of an existing collection and are left out.  The result
    carries [all_docs], whose length the script prints. *)
Definition ingest (b : store_behaviour) (w : World)
    : World * outcome (list Document) :=
  let hash_db := load_hash_db (HASH_DB_PATH w) in
  match scan_files (hash_db, []) (DATA_DIR w) with
  | Raise e => (w, Raise e)
  | Done (hash_db', all_docs) =>
      let '(store', added) :=
        match all_docs with
        | [] => (collection w, Done tt)
        | _ :: _ => add_documents b all_docs (collection w)
        end in
      match added with
      | Raise e =>
          ({| DATA_DIR := DATA_DIR w; HASH_DB_PATH := HASH_DB_PATH w;
              collection := store' |}, Raise e)
      | Done _ =>
          ({| DATA_DIR := DATA_DIR w; HASH_DB_PATH := Some hash_db';
              collection := store' |}, Done all_docs)
      end
  end.

(** The chunks of a listing in the order the two loops visit them. *)
Definition chunks_of_entry (e : string * dir_entry) : list Document :=
  match e.2 with
  | TextFile text => load_and_split e.1 text
  | _ => []
  end.

Definition all_chunks (listing : list (string * dir_entry)) : list Document :=
  listing ≫= chunks_of_entry.

Definition readable (e : string * dir_entry) : Prop := e.2 ≠ Unreadable.

End Ingest.

(** The ledger of a world, as the next run would load it. *)
Definition ledger (w : World) : gmap string string := load_hash_db (HASH_DB_PATH w).

(** Every hash of the ledger is the hash of a stored record. *)
Definition ledger_sound (db : gmap string string) (store : list Document) : Prop :=
  ∀ h, h ∈ dom db → ∃ d, d ∈ store ∧ chunk_hash d = h.

(** ** The query service, [api.py] *)

(** The values that flow through the chain: a string, the list of documents
    a retriever returns, the dictionary a [RunnableParallel] builds. *)
Inductive value :=
| VStr (s : string)
| VDocs (docs : list Document)
| VDict (fields : list (string * value)).

(** Keyword arguments of a call, as in [invoke(q, max_tokens=200)]. *)
Definition kwargs : Type := list (string * Z).

(** The calls that leave the process. *)
Inductive event :=
| SimilaritySearch (query : string) (k : nat)
| Generate (model prompt : string) (options : kwargs).

(** The collaborators of the service: the vector store behind the
    retriever, the Ollama server behind the [llm], Python's [repr] for the
    values a prompt template formats, and the environment. *)
Class Backends := {
  similarity_search : string → nat → outcome (list Document);
  generate : string → string → kwargs → outcome string;
  repr : value → string;
  OLLAMA_MODEL : option string
}.

Inductive piece :=
| Lit (s : string)
| Var (name : string).

(** The runnables [api.py] builds, and [a | b]. *)
Inductive runnable :=
| Retriever (k : nat)
| RunnablePassthrough
| RunnableParallel (steps : list (string * runnable))
| PromptTemplate (template : list piece)
| Ollama (model : string)
| Pipe (first second : runnable).

Fixpoint get (key : string) (fields : list (string * value)) : option value :=
  match fields with
  | [] => None
  | (k, v) :: rest => if decide (k = key) then Some v else get key rest
  end.

Inductive response :=
| OK (body : list (string * value))
| UnprocessableEntity
| InternalServerError.

Definition client_error (r : response) : Prop := r = UnprocessableEntity.

Definition nl : string := String "010"%char "".

Section Api.
Context `{Backends}.

Definition str (v : value) : string :=
  match v with
  | VStr s => s
  | _ => repr v
  end.

(** [template.format] on the fields of the input dictionary. *)
Fixpoint format (template : list piece) (fields : list (string * value))
    : outcome string :=
  match template with
  | [] => Done ""
  | Lit s :: rest => rendered ← format rest fields; Done (s +:+ rendered)
  | Var name :: rest =>
      match get name fields with
      | None => Raise (KeyError name)
      | Some v => rendered ← format rest fields; Done (str v +:+ rendered)
      end
  end.

(** [r.invoke] on an input and keyword arguments: the calls made, in order, and the result.  A
    sequence [a | b] hands its keyword arguments to its first step and
    calls the later steps with the previous output alone; a
    [RunnableParallel] calls each of its steps with the input alone. *)
Fixpoint invoke (r : runnable) (input : value) (kw : kwargs) {struct r}
    : list event * outcome value :=
  match r with
  | Retriever k =>
      match input with
      | VStr query =>
          ([SimilaritySearch query k], VDocs <$> similarity_search query k)
      | _ => ([], Raise TypeError)
      end
  | RunnablePassthrough => ([], Done input)
  | RunnableParallel steps =>
      let '(t, o) :=
        (fix run (steps : list (string * runnable))
             : list event * outcome (list (string * value)) :=
           match steps with
           | [] => ([], Done [])
           | (key, step) :: rest =>
               let '(t1, o1) := invoke step input [] in
               match o1 with
               | Raise e => (t1, Raise e)
               | Done v =>
                   let '(t2, o2) := run rest in
                   (t1 ++ t2, (λ fields, (key, v) :: fields) <$> o2)
               end
           end) steps in
      (t, VDict <$> o)
  | PromptTemplate template =>
      match input with
      | VDict fields => ([], VStr <$> format template fields)
      | _ => ([], Raise TypeError)
      end
  | Ollama model =>
      match input with
      | VStr prompt =>
          ([Generate model prompt kw], VStr <$> generate model prompt kw)
      | _ => ([], Raise TypeError)
      end
  | Pipe first second =>
      let '(t1, o1) := invoke first input kw in
      match o1 with
      | Raise e => (t1, Raise e)
      | Done v => let '(t2, o2) := invoke second v [] in (t1 ++ t2, o2)
      end
  end.

(** Line 23. *)
Definition retriever : runnable := Retriever 3.

(** Lines 26-28. *)
Definition llm : runnable := Ollama (default "llama3" OLLAMA_MODEL).

(** Lines 30-32. *)
Definition prompt : runnable :=
  PromptTemplate
    [ Lit ("Voici des extraits pertinents :" +:+ nl); Var "context";
      Lit (nl +:+ nl +:+ "Question : "); Var "question";
      Lit (nl +:+ "Réponse :") ].

(** Lines 35-39. *)
Definition rag_chain : runnable :=
  Pipe (Pipe (RunnableParallel
                [("context", retriever); ("question", RunnablePassthrough)])
             prompt)
       llm.

(** Lines 43-45, the handler. *)
Definition query_api (q : string)
    : list event * outcome (list (string * value)) :=
  let '(t, o) := invoke rag_chain (VStr q) [("max_tokens", 200%Z)] in
  (t, response ← o; Done [("question", VStr q); ("response", response)]).

(** [GET /query], with the value of the query parameter [q] when the
    request has one.  [q: str = Query(...)] declares it required: the
    framework answers 422 without calling the handler when it is absent,
    and any string, the empty one included, is a valid [str]. *)
Definition get_query (q : option string) : list event * response :=
  match q with
  | None => ([], UnprocessableEntity)
  | Some q =>
      let '(t, o) := query_api q in
      (t, match o with
          | Done body => OK body
          | Raise _ => InternalServerError
          end)
  end.

(** The prompt the template produces for a context and a question. *)
Definition assembled_prompt (context : list Document) (question : string)
    : string :=
  ("Voici des extraits pertinents :" +:+ nl) +:+ repr (VDocs context)
    +:+ (nl +:+ nl +:+ "Question : ") +:+ question
    +:+ (nl +:+ "Réponse :") +:+ "".

End Api.

(** An in-memory vector store with no record and a language model with a
    fixed answer. *)
Definition fake_backends : Backends := {|
  similarity_search _ _ := Done [];
  generate _ _ _ := Done "Bonjour";
  repr _ := "[]";
  OLLAMA_MODEL := None
|}.

(** The world [w] with another directory listing. *)
Definition with_listing (listing : list (string * dir_entry)) (w : World)
    : World :=
  {| DATA_DIR := listing; HASH_DB_PATH := HASH_DB_PATH w;
     collection := collection w |}.

(** Two runs that end alike: same result, same ledger file, same
    collection. *)
Definition same_effect (r1 r2 : World * outcome (list Document)) : Prop :=
  r1.2 = r2.2 ∧ HASH_DB_PATH r1.1 = HASH_DB_PATH r2.1
  ∧ collection r1.1 = collection r2.1.

(** Follows the spec's words: a read error aborts the processing of that
    file only, so the run ends as it would without the file. *)
Definition read_error_is_local `{Splitter} (b : store_behaviour) (w : World)
    : Prop :=
  ∀ pre f post,
    DATA_DIR w = pre ++ (f, Unreadable) :: post →
    same_effect (ingest b w) (ingest b (with_listing (pre ++ post) w)).

(** Follows the spec's words: of two files with identical content, the
    ledger attributes every chunk hash of that content to the file processed
    first, and the second file is skipped, so the run ends as it would
    without it. *)
Definition first_file_attribution `{Splitter} (b : store_behaviour)
    (w : World) : Prop :=
  ∀ pre f1 mid f2 post t,
    DATA_DIR w = pre ++ (f1, TextFile t) :: mid ++ (f2, TextFile t) :: post →
    (∃ docs, (ingest b w).2 = Done docs) →
    (∀ c, c ∈ split_text t →
          ledger (ingest b w).1 !! MD5.hexdigest c = Some f1)
    ∧ same_effect (ingest b w)
        (ingest b (with_listing (pre ++ (f1, TextFile t) :: mid ++ post) w)).

(** ** Sample data *)

Definition doc (text filename : string) : Document :=
  {| page_content := text; source := filename |}.

(** One file below the chunk size, no ledger yet, an empty collection. *)
Definition fresh_world : World := {|
  DATA_DIR := [("a.txt", TextFile "hello world")];
  HASH_DB_PATH := None;
  collection := []
|}.

(** Two files with the same content, and a ledger that already attributes
    that content to a file of an earlier run. *)
Definition twins_world : World := {|
  DATA_DIR := [("a.txt", TextFile "hello world");
               ("b.txt", TextFile "hello world")];
  HASH_DB_PATH := Some {[ "5eb63bbbe01eeed093cb22bb8f5acdc3" := "old.txt" ]};
  collection := [doc "hello world" "old.txt"]
|}.

(** Two files with the same content and nothing ingested before. *)
Definition new_twins_world : World := {|
  DATA_DIR := [("a.txt", TextFile "hello world");
               ("b.txt", TextFile "hello world")];
  HASH_DB_PATH := None;
  collection := []
|}.

(** A file that cannot be read, listed before one that can. *)
Definition unreadable_world : World := {|
  DATA_DIR := [("bad.bin", Unreadable); ("a.txt", TextFile "hello world")];
  HASH_DB_PATH := None;
  collection := []
|}.


(** A sub-directory listed between two files with different texts. *)
Definition mixed_world : World := {|
  DATA_DIR := [("a.txt", TextFile "hello world"); ("notes", NotAFile);
               ("b.txt", TextFile "bonjour")];
  HASH_DB_PATH := None;
  collection := []
|}.

(** A vector store that cannot be reached. *)
Definition down_backends : Backends := {|
  similarity_search _ _ := Raise (BackendError "qdrant");
  generate _ _ _ := Done "Bonjour";
  repr _ := "[]";
  OLLAMA_MODEL := Some "mistral"
|}.

#[global] Instance dir_entry_eq_dec : EqDecision dir_entry.
Proof. solve_decision. Defined.

(** Line 58: what [os.path.isfile] holds of. *)
Definition isfile (e : string * dir_entry) : Prop := e.2 ≠ NotAFile.

(** The characters of [hexdigest()]. *)
Definition hexdigits : list ascii := list_ascii_of_string "0123456789abcdef".

(** ** Collection set-up, [ingest.py] lines 30-36 *)

Inductive Distance :=
| COSINE
| EUCLID
| DOT.

(** A collection of the Qdrant server: its vector parameters and its
    records. *)
Record CollectionInfo := {
  vectors_size : nat;
  vectors_distance : Distance;
  points : list Document
}.

Definition COLLECTION_NAME : string := "documents".

(** [qdrant_client.recreate_collection]: whatever collection has that name
    is dropped, and an empty one is created. *)
Definition recreate_collection (collection_name : string) (vs : nat)
    (d : Distance) (server : gmap string CollectionInfo)
    : gmap string CollectionInfo :=
  <[collection_name :=
      {| vectors_size := vs; vectors_distance := d; points := [] |}]> server.

(** Lines 31-36, on the collections of the server by name. *)
Definition create_collection_if_missing (server : gmap string CollectionInfo)
    : gmap string CollectionInfo :=
  if decide (COLLECTION_NAME ∈ dom server) then server
  else recreate_collection COLLECTION_NAME 384 COSINE server.

(** * Properties *)

Arguments MD5.hexdigest : simpl never.
Arguments visit : simpl never.

(** ** The digest on known inputs *)

Example md5_empty : MD5.hexdigest "" = "d41d8cd98f00b204e9800998ecf8427e".
Proof. vm_compute. reflexivity. Qed.

Example md5_hello_world :
  MD5.hexdigest "hello world" = "5eb63bbbe01eeed093cb22bb8f5acdc3".
Proof. vm_compute. reflexivity. Qed.

Example md5_two_blocks :
  MD5.hexdigest
    "aaaaaaaaaaaaaaaaaaaaaaaaaaaaaaaaaaaaaaaaaaaaaaaaaaaaaaaa"
  = "3b0c8ac703f828b04c6c197006d17218".
Proof. vm_compute. reflexivity. Qed.

(** ** The first run over one small file, and the second *)

Example first_run :
  @ingest FixedWindow.splitter Accepts fresh_world =
    ({| DATA_DIR := DATA_DIR fresh_world;
        HASH_DB_PATH :=
          Some {[ "5eb63bbbe01eeed093cb22bb8f5acdc3" := "a.txt" ]};
        collection := [doc "hello world" "a.txt"] |},
     Done [doc "hello world" "a.txt"]).
Proof. vm_compute. reflexivity. Qed.

Example second_run :
  let w1 := (@ingest FixedWindow.splitter Accepts fresh_world).1 in
  @ingest FixedWindow.splitter (FailsAfter 0) w1 = (w1, Done []).
Proof. vm_compute. reflexivity. Qed.

(** ** The chunk loop *)

Lemma visit_eq db acc c :
  visit (db, acc) c =
    match db !! chunk_hash c with
    | Some _ => (db, acc)
    | None => (<[chunk_hash c := source c]> db, acc ++ [c])
    end.
Proof. done. Qed.

Lemma foldl_visit_acc cs db acc :
  foldl visit (db, acc) cs = (recorded db cs, acc ++ marked db cs).
Proof.
  unfold recorded, marked.
  revert db acc; induction cs as [|c cs IH]; intros db acc; simpl.
  { by rewrite app_nil_r. }
  rewrite !visit_eq.
  destruct (db !! chunk_hash c) as [f|] eqn:Hdb; [apply IH|].
  rewrite IH, (IH _ ([] ++ [c])); simpl. by rewrite <- app_assoc.
Qed.

Lemma recorded_nil db : recorded db [] = db.
Proof. done. Qed.

Lemma marked_nil db : marked db [] = [].
Proof. done. Qed.

Lemma recorded_cons db c cs :
  recorded db (c :: cs) =
    match db !! chunk_hash c with
    | Some _ => recorded db cs
    | None => recorded (<[chunk_hash c := source c]> db) cs
    end.
Proof.
  unfold recorded; simpl. rewrite visit_eq.
  destruct (db !! chunk_hash c); [done|]. by rewrite foldl_visit_acc.
Qed.

Lemma marked_cons db c cs :
  marked db (c :: cs) =
    match db !! chunk_hash c with
    | Some _ => marked db cs
    | None => c :: marked (<[chunk_hash c := source c]> db) cs
    end.
Proof.
  unfold marked; simpl. rewrite visit_eq.
  destruct (db !! chunk_hash c); [done|]. by rewrite foldl_visit_acc.
Qed.

Lemma recorded_app db cs1 cs2 :
  recorded db (cs1 ++ cs2) = recorded (recorded db cs1) cs2.
Proof.
  unfold recorded at 1. rewrite foldl_app, foldl_visit_acc, foldl_visit_acc.
  done.
Qed.

Lemma marked_app db cs1 cs2 :
  marked db (cs1 ++ cs2) = marked db cs1 ++ marked (recorded db cs1) cs2.
Proof.
  unfold marked at 1. rewrite foldl_app, foldl_visit_acc, foldl_visit_acc.
  done.
Qed.

Lemma recorded_subseteq db cs : db ⊆ recorded db cs.
Proof.
  revert db; induction cs as [|c cs IH]; intros db; [done|].
  rewrite recorded_cons. destruct (db !! chunk_hash c) eqn:Hdb; [apply IH|].
  etrans; [|apply IH]. by apply insert_subseteq.
Qed.

Lemma dom_recorded db cs :
  dom (recorded db cs) = dom db ∪ list_to_set (chunk_hash <$> cs).
Proof.
  revert db; induction cs as [|c cs IH]; intros db.
  { rewrite recorded_nil. set_solver. }
  rewrite recorded_cons. destruct (db !! chunk_hash c) eqn:Hdb.
  - rewrite IH. apply (elem_of_dom_2 (D := gset string)) in Hdb. set_solver.
  - rewrite IH, dom_insert_L. set_solver.
Qed.

Lemma recorded_covers db cs c h :
  c ∈ cs → chunk_hash c = h → h ∈ dom (recorded db cs).
Proof.
  intros Hc Hh. rewrite dom_recorded.
  apply elem_of_union_r, elem_of_list_to_set, list_elem_of_fmap. eauto.
Qed.

Lemma visit_known db acc cs :
  (∀ c, c ∈ cs → chunk_hash c ∈ dom db) →
  foldl visit (db, acc) cs = (db, acc).
Proof.
  revert db acc; induction cs as [|c cs IH]; intros db acc Hk; [done|].
  simpl. rewrite visit_eq.
  assert (is_Some (db !! chunk_hash c)) as [f Hf].
  { apply elem_of_dom, Hk. left. }
  rewrite Hf. apply IH. intros c' Hc'. apply Hk. by right.
Qed.

Lemma marked_sublist db cs : marked db cs `sublist_of` cs.
Proof.
  revert db; induction cs as [|c cs IH]; intros db; [done|].
  rewrite marked_cons. destruct (db !! chunk_hash c).
  - by apply sublist_cons.
  - by apply sublist_skip.
Qed.

Lemma marked_fresh db cs d : d ∈ marked db cs → db !! chunk_hash d = None.
Proof.
  revert db; induction cs as [|c cs IH]; intros db.
  { rewrite marked_nil. by intros ?%elem_of_nil. }
  rewrite marked_cons. destruct (db !! chunk_hash c) eqn:Hdb; [apply IH|].
  intros [->|Hd]%elem_of_cons; [done|].
  apply IH in Hd. by apply lookup_insert_None in Hd as [? _].
Qed.

Lemma marked_NoDup db cs : NoDup (chunk_hash <$> marked db cs).
Proof.
  revert db; induction cs as [|c cs IH]; intros db.
  { rewrite marked_nil. constructor. }
  rewrite marked_cons. destruct (db !! chunk_hash c) eqn:Hdb; [apply IH|].
  rewrite fmap_cons. constructor; [|apply IH].
  intros (d & Hh & Hd)%list_elem_of_fmap.
  apply marked_fresh in Hd. rewrite <- Hh, lookup_insert_eq in Hd. done.
Qed.

Lemma marked_complete db cs c :
  c ∈ cs → db !! chunk_hash c = None →
  ∃ d, d ∈ marked db cs ∧ chunk_hash d = chunk_hash c.
Proof.
  revert db; induction cs as [|c0 cs IH]; intros db.
  { by intros ?%elem_of_nil. }
  rewrite marked_cons.
  intros [->|Hc]%elem_of_cons Hnew.
  { rewrite Hnew. exists c0. split; [left|done]. }
  destruct (db !! chunk_hash c0) eqn:Hdb; [by apply IH|].
  destruct (decide (chunk_hash c0 = chunk_hash c)) as [Heq|Hne].
  - exists c0. split; [left|done].
  - destruct (IH (<[chunk_hash c0 := source c0]> db) Hc) as (d & Hd & Hh).
    { by rewrite lookup_insert_ne. }
    exists d. split; [by right|done].
Qed.

Lemma recorded_lookup db cs h f :
  recorded db cs !! h = Some f →
  db !! h = Some f ∨
  (db !! h = None ∧ ∃ d, d ∈ marked db cs ∧ chunk_hash d = h ∧ source d = f).
Proof.
  revert db; induction cs as [|c cs IH]; intros db.
  { rewrite recorded_nil. by left. }
  rewrite recorded_cons, marked_cons.
  destruct (db !! chunk_hash c) eqn:Hdb; [apply IH|].
  intros [Hin|(Hnone & d & Hd & Hh & Hs)]%IH.
  - apply lookup_insert_Some in Hin as [[<- <-]|[Hne Hin]]; [|by left].
    right. split; [done|]. exists c. split; [left|done].
  - apply lookup_insert_None in Hnone as [Hnone _].
    right. split; [done|]. exists d. split; [by right|done].
Qed.

(** ** The file loop and the whole run *)

Section IngestFacts.
Context `{Splitter}.

Lemma load_and_split_source f t c : c ∈ load_and_split f t → source c = f.
Proof.
  unfold load_and_split. by intros (s & -> & _)%list_elem_of_fmap.
Qed.

Lemma load_and_split_content f t c :
  c ∈ load_and_split f t ↔ source c = f ∧ page_content c ∈ split_text t.
Proof.
  unfold load_and_split. rewrite list_elem_of_fmap. split.
  - intros (s & -> & Hs). done.
  - intros [<- Hs]. exists (page_content c). by destruct c.
Qed.

Lemma foldl_check_visit f cs st :
  (∀ c, c ∈ cs → source c = f) →
  foldl (check_chunk f) st cs = foldl visit st cs.
Proof.
  revert st; induction cs as [|c cs IH]; intros st Hs; [done|].
  simpl. unfold visit at 2. rewrite (Hs c) by left.
  apply IH. intros c' Hc'. apply Hs. by right.
Qed.

Lemma process_entry_readable st e :
  readable e → process_entry st e = Done (foldl visit st (chunks_of_entry e)).
Proof.
  destruct st as [db docs], e as [f [|t|]]; unfold readable; simpl; [done| |done].
  intros _. unfold chunks_of_entry; simpl.
  rewrite foldl_check_visit by apply load_and_split_source.
  by rewrite !foldl_visit_acc.
Qed.

Lemma scan_files_readable st listing :
  Forall readable listing →
  scan_files st listing = Done (foldl visit st (all_chunks listing)).
Proof.
  intros Hr; revert st; induction Hr as [|e rest He _ IH]; intros st; [done|].
  simpl. rewrite process_entry_readable by done. simpl.
  rewrite foldl_app. apply IH.
Qed.

Lemma scan_files_unreadable st pre f post :
  Forall readable pre →
  scan_files st (pre ++ (f, Unreadable) :: post) = Raise (LoadError f).
Proof.
  intros Hr; revert st; induction Hr as [|e rest He _ IH]; intros st.
  { by destruct st. }
  simpl. rewrite process_entry_readable by done. apply IH.
Qed.

Lemma scan_files_Done st listing st' :
  scan_files st listing = Done st' → Forall readable listing.
Proof.
  revert st; induction listing as [|[f e] rest IH]; intros st; [constructor|].
  simpl. destruct e as [|t|].
  - rewrite (process_entry_readable st (f, NotAFile)) by done.
    intros Hs. constructor; [done|]. by eapply IH.
  - rewrite (process_entry_readable st (f, TextFile t)) by done.
    intros Hs. constructor; [done|]. by eapply IH.
  - by destruct st.
Qed.

(** A run in which every file is read. *)
Lemma ingest_readable b w :
  Forall readable (DATA_DIR w) →
  ingest b w =
    let docs := marked (ledger w) (all_chunks (DATA_DIR w)) in
    let db' := recorded (ledger w) (all_chunks (DATA_DIR w)) in
    match docs, b with
    | [], _ =>
        ({| DATA_DIR := DATA_DIR w; HASH_DB_PATH := Some db';
            collection := collection w |}, Done [])
    | _ :: _, Accepts =>
        ({| DATA_DIR := DATA_DIR w; HASH_DB_PATH := Some db';
            collection := collection w ++ docs |}, Done docs)
    | _ :: _, FailsAfter n =>
        ({| DATA_DIR := DATA_DIR w; HASH_DB_PATH := HASH_DB_PATH w;
            collection := collection w ++ take n docs |}, Raise StoreError)
    end.
Proof.
  intros Hr. unfold ingest. rewrite scan_files_readable by done.
  rewrite foldl_visit_acc. simpl. fold (ledger w).
  destruct (marked (ledger w) (all_chunks (DATA_DIR w))) as [|d docs]; [done|].
  by destruct b.
Qed.

(** A run that ends normally. *)
Lemma ingest_Done b w w' docs :
  ingest b w = (w', Done docs) →
  Forall readable (DATA_DIR w)
  ∧ docs = marked (ledger w) (all_chunks (DATA_DIR w))
  ∧ w' = {| DATA_DIR := DATA_DIR w;
            HASH_DB_PATH := Some (recorded (ledger w) (all_chunks (DATA_DIR w)));
            collection := collection w ++ docs |}.
Proof.
  intros Hrun.
  assert (Forall readable (DATA_DIR w)) as Hr.
  { unfold ingest in Hrun.
    destruct (scan_files _ (DATA_DIR w)) as [st|e] eqn:Hs; [|done].
    by eapply scan_files_Done. }
  split; [done|]. rewrite ingest_readable in Hrun by done. simpl in Hrun.
  destruct (marked (ledger w) (all_chunks (DATA_DIR w))) as [|d ds].
  - inversion Hrun; subst. by rewrite app_nil_r.
  - destruct b; by inversion Hrun.
Qed.

(** A run that ends with an exception. *)
Lemma ingest_Raise b w w' e :
  ingest b w = (w', Raise e) →
  DATA_DIR w' = DATA_DIR w ∧ HASH_DB_PATH w' = HASH_DB_PATH w
  ∧ ∃ n, collection w' =
         collection w ++ take n (marked (ledger w) (all_chunks (DATA_DIR w))).
Proof.
  unfold ingest.
  destruct (scan_files _ (DATA_DIR w)) as [[db' docs]|e'] eqn:Hs.
  - apply scan_files_Done in Hs as Hr.
    rewrite scan_files_readable, foldl_visit_acc in Hs by done.
    simpl in Hs. fold (ledger w) in Hs. inversion Hs; subst.
    destruct (marked (ledger w) (all_chunks (DATA_DIR w))) as [|d ds]; [done|].
    destruct b as [|n]; [done|]. simpl. intros [= <- <-]. simpl.
    split_and!; [done..|]. by exists n.
  - intros [= <- <-]. split_and!; [done..|]. exists 0.
    by rewrite take_0, app_nil_r.
Qed.

End IngestFacts.

(** ** Ledger and store *)

Section LedgerProperties.
Context `{Splitter}.

(** C10. A run never removes or overwrites an entry of the ledger it
    loaded: whatever the store does and whatever the directory holds, the
    ledger file after the run contains every hash-to-filename mapping of
    the ledger file before it. *)
Theorem ledger_only_grows b w : ledger w ⊆ ledger (ingest b w).1.
Proof.
  destruct (ingest b w) as [w' [docs|e]] eqn:Hrun; simpl.
  - apply ingest_Done in Hrun as (_ & _ & ->). apply recorded_subseteq.
  - apply ingest_Raise in Hrun as (_ & Hl & _). unfold ledger. by rewrite Hl.
Qed.

(** C1. When the run ends with an exception, the failing batch add
    included, the ledger file is the one the run found; and after any run
    every hash of the ledger file is the hash of a record of the
    collection, provided that held before the run. *)
Theorem ledger_integrity b w :
  (∀ e, (ingest b w).2 = Raise e →
        HASH_DB_PATH (ingest b w).1 = HASH_DB_PATH w)
  ∧ (ledger_sound (ledger w) (collection w) →
     ledger_sound (ledger (ingest b w).1) (collection (ingest b w).1)).
Proof.
  destruct (ingest b w) as [w' [docs|e]] eqn:Hrun; simpl.
  - split; [done|]. intros Hsound h Hh.
    apply ingest_Done in Hrun as (_ & -> & ->). simpl in *.
    unfold ledger in Hh; simpl in Hh.
    apply elem_of_dom in Hh as [f Hf].
    apply recorded_lookup in Hf as [Hold|(_ & d & Hd & Hdh & _)].
    + destruct (Hsound h) as (d & Hd & Hdh); [by eapply elem_of_dom_2|].
      exists d. split; [|done]. apply elem_of_app. by left.
    + exists d. split; [|done]. apply elem_of_app. by right.
  - apply ingest_Raise in Hrun as (_ & Hl & n & Hc).
    split; [done|]. intros Hsound h Hh.
    unfold ledger in Hh. rewrite Hl in Hh.
    destruct (Hsound h Hh) as (d & Hd & Hdh).
    exists d. split; [|done]. rewrite Hc. apply elem_of_app. by left.
Qed.

(** The batch add does fail the run when the store fails and there is
    something to add. *)
Lemma store_failure_raises n w :
  Forall readable (DATA_DIR w) →
  marked (ledger w) (all_chunks (DATA_DIR w)) ≠ [] →
  (ingest (FailsAfter n) w).2 = Raise StoreError.
Proof.
  intros Hr Hm. rewrite ingest_readable by done. simpl.
  by destruct (marked (ledger w) (all_chunks (DATA_DIR w))).
Qed.

Lemma all_chunks_Permutation l1 l2 :
  l1 ≡ₚ l2 → all_chunks l1 ≡ₚ all_chunks l2.
Proof. intros Hp. unfold all_chunks. by rewrite Hp. Qed.

(** C2. After a run that ended normally, a second run over the same
    directory entries, listed in any order, with the ledger file and the
    collection the first run left, marks no chunk, does not call the
    store and leaves the ledger file and the collection as they were. *)
Theorem ingest_idempotent b1 b2 w listing :
  (∃ docs, (ingest b1 w).2 = Done docs) →
  listing ≡ₚ DATA_DIR w →
  let w1 := {| DATA_DIR := listing;
               HASH_DB_PATH := HASH_DB_PATH (ingest b1 w).1;
               collection := collection (ingest b1 w).1 |} in
  ingest b2 w1 = (w1, Done []).
Proof.
  intros [docs Hd] Hperm.
  destruct (ingest b1 w) as [w' r] eqn:Hrun; simpl in Hd; subst r.
  apply ingest_Done in Hrun as (Hr & -> & ->). simpl.
  set (db' := recorded (ledger w) (all_chunks (DATA_DIR w))).
  set (store' := collection w ++ _).
  assert (Forall readable listing) as Hr' by by rewrite Hperm.
  unfold ingest; simpl. rewrite scan_files_readable by done.
  rewrite visit_known; [done|].
  intros c Hc. apply (recorded_covers _ _ c); [|done].
  by rewrite <- (all_chunks_Permutation _ _ Hperm).
Qed.

End LedgerProperties.

Lemma ledger_integrity_witness :
  HASH_DB_PATH (@ingest FixedWindow.splitter (FailsAfter 0) fresh_world).1
    = HASH_DB_PATH fresh_world
  ∧ ledger_sound
      (ledger (@ingest FixedWindow.splitter Accepts fresh_world).1)
      (collection (@ingest FixedWindow.splitter Accepts fresh_world).1).
Proof.
  split.
  - apply (proj1 (@ledger_integrity FixedWindow.splitter (FailsAfter 0)
                    fresh_world) StoreError).
    vm_compute. reflexivity.
  - apply (proj2 (@ledger_integrity FixedWindow.splitter Accepts fresh_world)).
    intros h Hh. exfalso. revert Hh. apply not_elem_of_empty.
Defined.

Lemma ingest_idempotent_witness :
  let w1 := (@ingest FixedWindow.splitter Accepts fresh_world).1 in
  @ingest FixedWindow.splitter Accepts w1 = (w1, Done []).
Proof.
  apply (@ingest_idempotent FixedWindow.splitter Accepts Accepts fresh_world
           (DATA_DIR fresh_world)).
  - exists [doc "hello world" "a.txt"]. vm_compute. reflexivity.
  - reflexivity.
Defined.

(** ** Read errors *)

Section ReadErrors.
Context `{Splitter}.

(** C8, amended. A file that cannot be read ends the whole run at that
    file: the run raises the loader's error, nothing is added to the
    collection and the ledger file stays as it was, whatever the other
    files hold. *)
Theorem read_error_aborts_run b w pre f post :
  DATA_DIR w = pre ++ (f, Unreadable) :: post →
  Forall readable pre →
  ingest b w = (w, Raise (LoadError f)).
Proof.
  intros Hdir Hr. unfold ingest.
  by rewrite Hdir, scan_files_unreadable.
Qed.

End ReadErrors.

Lemma read_error_aborts_run_witness :
  @ingest FixedWindow.splitter Accepts unreadable_world
  = (unreadable_world, Raise (LoadError "bad.bin")).
Proof.
  apply (@read_error_aborts_run FixedWindow.splitter Accepts unreadable_world
           [] "bad.bin" [("a.txt", TextFile "hello world")]).
  - reflexivity.
  - constructor.
Defined.

(** C8 as stated fails: with an unreadable file listed first, the run
    stores nothing and writes no ledger, while without that file it stores
    the chunk of [a.txt] and writes the ledger. *)
Lemma read_error_not_local :
  ¬ @read_error_is_local FixedWindow.splitter Accepts unreadable_world.
Proof.
  intros Hlocal.
  destruct (Hlocal [] "bad.bin" [("a.txt", TextFile "hello world")] eq_refl)
    as (Hres & _).
  vm_compute in Hres. discriminate Hres.
Qed.

(** ** Identical content *)

Section IdenticalContent.
Context `{Splitter}.

Lemma recorded_first db cs c f :
  c ∈ cs → (∀ c', c' ∈ cs → source c' = f) →
  db !! chunk_hash c = None →
  recorded db cs !! chunk_hash c = Some f.
Proof.
  intros Hc Hsrc Hnew.
  assert (is_Some (recorded db cs !! chunk_hash c)) as [f' Hf'].
  { by apply elem_of_dom, (recorded_covers _ _ c). }
  rewrite Hf'. f_equal.
  apply recorded_lookup in Hf' as [Hold|(_ & d & Hd & _ & <-)]; [congruence|].
  apply Hsrc. eapply elem_of_sublist; [done|apply marked_sublist].
Qed.

Lemma all_chunks_app l1 l2 : all_chunks (l1 ++ l2) = all_chunks l1 ++ all_chunks l2.
Proof. unfold all_chunks. apply bind_app. Qed.

Lemma all_chunks_cons e l : all_chunks (e :: l) = chunks_of_entry e ++ all_chunks l.
Proof. done. Qed.

Lemma scan_files_app st l1 l2 :
  scan_files st (l1 ++ l2) = scan_files st l1 ≫= λ st', scan_files st' l2.
Proof.
  revert st; induction l1 as [|e l1 IH]; intros st; [done|].
  simpl. destruct (process_entry st e) as [st'|err]; [apply IH|done].
Qed.

(** Visiting the chunks of a second copy of a text changes nothing. *)
Lemma second_copy_skipped st listing f1 f2 t :
  (f1, TextFile t) ∈ listing →
  let st1 := foldl visit st (all_chunks listing) in
  foldl visit st1 (load_and_split f2 t) = st1.
Proof.
  intros Hin st1. destruct st as [db acc]. unfold st1.
  rewrite foldl_visit_acc.
  apply visit_known. intros c [_ Hc]%load_and_split_content.
  apply (recorded_covers _ _ (doc (page_content c) f1)); [|done].
  unfold all_chunks. apply list_elem_of_bind. exists (f1, TextFile t).
  split; [|done]. by apply load_and_split_content.
Qed.

Lemma scan_without_second_copy st pre f1 mid f2 post t :
  scan_files st (pre ++ (f1, TextFile t) :: mid ++ (f2, TextFile t) :: post)
  = scan_files st (pre ++ (f1, TextFile t) :: mid ++ post).
Proof.
  replace (pre ++ (f1, TextFile t) :: mid ++ (f2, TextFile t) :: post)
    with ((pre ++ (f1, TextFile t) :: mid) ++ (f2, TextFile t) :: post)
    by (by rewrite <- app_assoc).
  replace (pre ++ (f1, TextFile t) :: mid ++ post)
    with ((pre ++ (f1, TextFile t) :: mid) ++ post)
    by (by rewrite <- app_assoc).
  rewrite !(scan_files_app st (pre ++ (f1, TextFile t) :: mid)).
  destruct (scan_files st (pre ++ (f1, TextFile t) :: mid))
    as [st1|err] eqn:Hs; [|done].
  simpl. rewrite (process_entry_readable st1 (f2, TextFile t)) by done.
  apply scan_files_Done in Hs as Hr.
  rewrite scan_files_readable in Hs by done. injection Hs as <-.
  unfold chunks_of_entry; simpl.
  rewrite (second_copy_skipped st _ f1); [done|].
  apply elem_of_app; right. left.
Qed.

Lemma ingest_without_second_copy b w pre f1 mid f2 post t :
  DATA_DIR w = pre ++ (f1, TextFile t) :: mid ++ (f2, TextFile t) :: post →
  same_effect (ingest b w)
    (ingest b (with_listing (pre ++ (f1, TextFile t) :: mid ++ post) w)).
Proof.
  intros Hdir. unfold ingest, with_listing; simpl.
  rewrite Hdir, scan_without_second_copy.
  destruct (scan_files _ _) as [[db' docs]|err]; [|done].
  destruct docs as [|d docs]; [done|]. by destruct b.
Qed.

(** C3, amended. Chunks with the same text have the same hash. When a
    run that ends normally lists two files with the same content, each
    chunk hash of that content is mapped, in the ledger file the run
    writes, to the filename the ledger already held for it when the loop
    reached the first of the two files (loaded from the ledger file, or
    recorded for a file listed earlier), and to the first file's name when
    it held none. In every case the second file adds nothing: the run ends
    as it would without it. *)
Theorem identical_files b w pre f1 mid f2 post t :
  DATA_DIR w = pre ++ (f1, TextFile t) :: mid ++ (f2, TextFile t) :: post →
  (∀ c1 c2, page_content c1 = page_content c2 → chunk_hash c1 = chunk_hash c2)
  ∧ ((∃ docs, (ingest b w).2 = Done docs) →
     ∀ c, c ∈ split_text t →
       ledger (ingest b w).1 !! MD5.hexdigest c =
         Some (default f1
                 (recorded (ledger w) (all_chunks pre) !! MD5.hexdigest c)))
  ∧ same_effect (ingest b w)
      (ingest b (with_listing (pre ++ (f1, TextFile t) :: mid ++ post) w)).
Proof.
  intros Hdir. split_and!.
  - intros c1 c2 Hc. unfold chunk_hash. by rewrite Hc.
  - intros [docs Hd] c Hc.
    destruct (ingest b w) as [w' r] eqn:Hrun; simpl in Hd; subst r.
    apply ingest_Done in Hrun as (_ & _ & ->). unfold ledger at 1; simpl.
    rewrite Hdir, all_chunks_app, all_chunks_cons, recorded_app, recorded_app.
    set (db1 := recorded (ledger w) (all_chunks pre)).
    eapply lookup_weaken; [|apply recorded_subseteq].
    change (MD5.hexdigest c) with (chunk_hash (doc c f1)).
    destruct (db1 !! chunk_hash (doc c f1)) as [f|] eqn:Hdb1; simpl.
    + eapply lookup_weaken; [done|apply recorded_subseteq].
    + apply recorded_first; [|apply load_and_split_source|done].
      by apply load_and_split_content.
  - apply (ingest_without_second_copy b w pre f1 mid f2 post t Hdir).
Qed.

End IdenticalContent.

Lemma identical_files_witness :
  ledger (@ingest FixedWindow.splitter Accepts new_twins_world).1
    !! MD5.hexdigest "hello world" = Some "a.txt".
Proof.
  apply (proj1 (proj2 (@identical_files FixedWindow.splitter Accepts
                         new_twins_world [] "a.txt" [] "b.txt" []
                         "hello world" eq_refl))).
  - exists [doc "hello world" "a.txt"]. vm_compute. reflexivity.
  - vm_compute. left.
Defined.

(** C3 as stated fails: the ledger of an earlier run attributes the
    content to [old.txt], and the run leaves that entry alone instead of
    attributing it to [a.txt], the first of the two files. *)
Lemma first_file_attribution_fails :
  ¬ @first_file_attribution FixedWindow.splitter Accepts twins_world.
Proof.
  intros Hclaim.
  destruct (Hclaim [] "a.txt" [] "b.txt" [] "hello world" eq_refl) as [Hl _].
  { exists []. vm_compute. reflexivity. }
  specialize (Hl "hello world"). vm_compute in Hl.
  assert (Some "old.txt" = Some "a.txt") as Habs by (apply Hl; left).
  discriminate Habs.
Qed.

(** ** Repeated content within a run *)

Lemma contribution_later db pre c c0 :
  c0 ∈ pre → page_content c0 = page_content c → contribution db pre c = [].
Proof.
  intros Hin Htext. unfold contribution. rewrite marked_cons.
  assert (is_Some (recorded db pre !! chunk_hash c)) as [f ->]; [|done].
  apply elem_of_dom, (recorded_covers _ _ c0); [done|].
  unfold chunk_hash. by rewrite Htext.
Qed.

Lemma contribution_first db pre c :
  db !! chunk_hash c = None →
  (∀ c0, c0 ∈ pre → chunk_hash c0 ≠ chunk_hash c) →
  contribution db pre c = [c].
Proof.
  intros Hnew Hfirst. unfold contribution. rewrite marked_cons.
  assert (recorded db pre !! chunk_hash c = None) as ->; [|done].
  apply not_elem_of_dom. rewrite dom_recorded.
  intros [Hdb|Hpre]%elem_of_union.
  - by apply not_elem_of_dom in Hnew.
  - apply elem_of_list_to_set, list_elem_of_fmap in Hpre as (c0 & Hh & Hc0).
    by apply (Hfirst c0).
Qed.

Lemma marked_middle db pre c post :
  marked db (pre ++ c :: post) =
    marked db pre ++ contribution db pre c
      ++ marked (recorded db (pre ++ [c])) post.
Proof.
  replace (pre ++ c :: post) with ((pre ++ [c]) ++ post)
    by (by rewrite <- app_assoc).
  by rewrite marked_app, marked_app, <- app_assoc.
Qed.

Section RepeatedContent.
Context `{Splitter}.

(** C9. In a run that ends normally no two marked chunks have the same
    text, and the marked chunks are what the collection gains. A chunk
    whose text an earlier chunk of the run already had, in the same file
    or in another, is skipped; a chunk whose hash is neither in the loaded
    ledger nor the hash of an earlier chunk is marked. *)
Theorem first_occurrence_only b w docs :
  (ingest b w).2 = Done docs →
  NoDup (page_content <$> docs)
  ∧ collection (ingest b w).1 = collection w ++ docs
  ∧ ∀ pre c post,
      all_chunks (DATA_DIR w) = pre ++ c :: post →
      docs = marked (ledger w) pre ++ contribution (ledger w) pre c
               ++ marked (recorded (ledger w) (pre ++ [c])) post
      ∧ ((∃ c0, c0 ∈ pre ∧ page_content c0 = page_content c) →
         contribution (ledger w) pre c = [])
      ∧ (ledger w !! chunk_hash c = None →
         (∀ c0, c0 ∈ pre → chunk_hash c0 ≠ chunk_hash c) →
         contribution (ledger w) pre c = [c]).
Proof.
  intros Hd.
  destruct (ingest b w) as [w' r] eqn:Hrun; simpl in Hd; subst r.
  apply ingest_Done in Hrun as (_ & Hdocs & ->). simpl. split_and!.
  - rewrite Hdocs. eapply (NoDup_fmap_1 MD5.hexdigest).
    rewrite <- list_fmap_compose. apply marked_NoDup.
  - done.
  - intros pre c post Hcs. split_and!.
    + by rewrite Hdocs, Hcs, marked_middle.
    + intros (c0 & Hc0 & Htext). by eapply contribution_later.
    + apply contribution_first.
Qed.

End RepeatedContent.

Lemma first_occurrence_only_witness :
  contribution (ledger new_twins_world) [doc "hello world" "a.txt"]
    (doc "hello world" "b.txt") = []
  ∧ contribution (ledger new_twins_world) [] (doc "hello world" "a.txt")
    = [doc "hello world" "a.txt"].
Proof.
  assert ((@ingest FixedWindow.splitter Accepts new_twins_world).2
          = Done [doc "hello world" "a.txt"]) as Hrun
    by (vm_compute; reflexivity).
  assert (@all_chunks FixedWindow.splitter (DATA_DIR new_twins_world)
          = [doc "hello world" "a.txt"] ++ doc "hello world" "b.txt" :: [])
    as Hlater by (vm_compute; reflexivity).
  assert (@all_chunks FixedWindow.splitter (DATA_DIR new_twins_world)
          = [] ++ doc "hello world" "a.txt" :: [doc "hello world" "b.txt"])
    as Hfirst by (vm_compute; reflexivity).
  assert (ledger new_twins_world !! chunk_hash (doc "hello world" "a.txt")
          = None) as Hnew by (vm_compute; reflexivity).
  pose proof (@first_occurrence_only FixedWindow.splitter Accepts
                new_twins_world _ Hrun) as (_ & _ & Hocc).
  split.
  - apply (proj1 (proj2 (Hocc _ _ _ Hlater))).
    exists (doc "hello world" "a.txt"). split; [left|reflexivity].
  - apply (proj2 (proj2 (Hocc _ _ _ Hfirst)) Hnew).
    intros c0 Hc0. exfalso. exact (proj1 (elem_of_nil c0) Hc0).
Defined.

(** ** The query service *)

Section ApiFacts.
Context `{Backends}.

(** What one call of the chain does, whatever keyword arguments it is
    given: one similarity search and, when that succeeds, one generation
    on the assembled prompt, called with no option. *)
Lemma invoke_rag_chain q kw :
  invoke rag_chain (VStr q) kw =
    match similarity_search q 3 with
    | Raise e => ([SimilaritySearch q 3], Raise e)
    | Done docs =>
        let p := assembled_prompt docs q in
        let model := default "llama3" OLLAMA_MODEL in
        ([SimilaritySearch q 3; Generate model p []],
         VStr <$> generate model p [])
    end.
Proof.
  unfold rag_chain, retriever, prompt, llm. simpl.
  destruct (similarity_search q 3) as [docs|e]; reflexivity.
Qed.

Lemma get_query_Some q :
  get_query (Some q) =
    match similarity_search q 3 with
    | Raise e => ([SimilaritySearch q 3], InternalServerError)
    | Done docs =>
        let p := assembled_prompt docs q in
        let model := default "llama3" OLLAMA_MODEL in
        ([SimilaritySearch q 3; Generate model p []],
         match generate model p [] with
         | Done answer =>
             OK [("question", VStr q); ("response", VStr answer)]
         | Raise _ => InternalServerError
         end)
    end.
Proof.
  unfold get_query, query_api. rewrite invoke_rag_chain.
  destruct (similarity_search q 3) as [docs|e]; [|done]. simpl.
  by destruct (generate _ _ _).
Qed.

(** C6. A request answered 200 carries a body with the two fields
    [question] and [response], in that order: [question] is [q] itself,
    and [response] is the string the language model returned for the
    prompt assembled from the retrieved documents and [q]. *)
Theorem query_response q t body :
  get_query (Some q) = (t, OK body) →
  ∃ docs answer,
    similarity_search q 3 = Done docs
    ∧ generate (default "llama3" OLLAMA_MODEL) (assembled_prompt docs q) []
      = Done answer
    ∧ body = [("question", VStr q); ("response", VStr answer)].
Proof.
  rewrite get_query_Some.
  destruct (similarity_search q 3) as [docs|e]; [|done]. simpl.
  destruct (generate _ _ _) as [answer|e] eqn:Hgen; [|done].
  intros [= <- <-]. by exists docs, answer.
Qed.

(** Every generation call of a request is made with no option at all:
    the [max_tokens=200] given to [rag_chain.invoke] stops at the first
    step of the chain and does not reach the language model. *)
Theorem max_tokens_not_applied q :
  Forall (λ ev, match ev with
                | Generate _ _ options => options = []
                | SimilaritySearch _ _ => True
                end) (get_query q).1.
Proof.
  destruct q as [q|]; [|constructor]. rewrite get_query_Some.
  destruct (similarity_search q 3) as [docs|e]; simpl;
    repeat constructor.
Qed.

(** C4, amended. A request without the parameter [q] is answered 422
    before any similarity search or generation. A request with [q], the
    empty string included, is handed to the chain, which starts with a
    similarity search for [q]; its answer is 200 or 500, not a client
    error. *)
Theorem missing_q_rejected :
  get_query None = ([], UnprocessableEntity)
  ∧ ∀ q, ∃ rest, (get_query (Some q)).1 = SimilaritySearch q 3 :: rest
                 ∧ ¬ client_error (get_query (Some q)).2.
Proof.
  split; [done|]. intros q. rewrite get_query_Some. unfold client_error.
  destruct (similarity_search q 3) as [docs|e]; simpl.
  - eexists. split; [done|]. by destruct (generate _ _ _).
  - by eexists.
Qed.

End ApiFacts.

Lemma query_response_witness :
  ∃ answer,
    (@get_query fake_backends (Some "hello")).2
    = OK [("question", VStr "hello"); ("response", VStr answer)].
Proof.
  destruct (@query_response fake_backends "hello"
              (@get_query fake_backends (Some "hello")).1
              [("question", VStr "hello"); ("response", VStr "Bonjour")])
    as (docs & answer & _ & _ & Hbody); [vm_compute; reflexivity|].
  exists answer. rewrite <- Hbody. vm_compute. reflexivity.
Defined.

(** C4 as stated fails for the empty string: the request reaches the
    vector store and the language model and is answered 200. *)
Lemma empty_q_not_rejected :
  ¬ ((@get_query fake_backends (Some "")).1 = []
     ∧ client_error (@get_query fake_backends (Some "")).2).
Proof. intros [Htrace _]. vm_compute in Htrace. discriminate Htrace. Qed.

(** C7. The claim is that the generation call is bounded by the
    max-tokens value; the code makes the only generation call of
    [GET /query?q=hello] with no option at all. *)
Lemma max_tokens_dropped_at_hello :
  (@get_query fake_backends (Some "hello")).1 =
    [ SimilaritySearch "hello" 3;
      Generate "llama3" (@assembled_prompt fake_backends [] "hello") [] ].
Proof. vm_compute. reflexivity. Qed.

(** ** The fixed-window splitter *)

Module FixedWindowFacts.
Import FixedWindow.








(** No splitter at all can meet both halves of the sentence at the
    configured size and overlap: on a text no longer than the overlap the
    formula asks for no chunk and the boundary case for one. *)
Lemma chunk_count_claim_inconsistent (sp : Splitter) :
  ¬ ∀ text,
      let L := Z.of_nat (String.length text) in
      Z.of_nat (length (sp text)) =
        expected_chunks L (Z.of_nat chunk_size) (Z.of_nat chunk_overlap)
      ∧ (String.length text ≤ chunk_size → length (sp text) = 1).
Proof.
  intros Hclaim. destruct (Hclaim "hello world") as [Hformula Hone].
  rewrite Hone in Hformula by (unfold chunk_size; simpl; lia).
  vm_compute in Hformula. discriminate Hformula.
Qed.

End FixedWindowFacts.

(** * Further properties of the ingestion script *)

Section MoreIngest.
Context `{Splitter}.

Lemma elem_of_all_chunks listing d :
  d ∈ all_chunks listing ↔
  ∃ t, (source d, TextFile t) ∈ listing ∧ page_content d ∈ split_text t.
Proof.
  unfold all_chunks. rewrite list_elem_of_bind. split.
  - intros ([f e] & Hd & He). unfold chunks_of_entry in Hd; simpl in Hd.
    destruct e as [|t|]; [by apply elem_of_nil in Hd| |by apply elem_of_nil in Hd].
    apply load_and_split_content in Hd as [<- Hd]. by exists t.
  - intros (t & He & Hd). exists (source d, TextFile t). split; [|done].
    by apply load_and_split_content.
Qed.

Lemma scan_files_isfile st listing :
  scan_files st (filter isfile listing) = scan_files st listing.
Proof.
  revert st; induction listing as [|[f e] rest IH]; intros st; [done|].
  destruct (decide (isfile (f, e))) as [Hf|Hf].
  - rewrite filter_cons_True by done. simpl.
    destruct (process_entry st (f, e)); [apply IH|done].
  - rewrite filter_cons_False by done.
    assert (e = NotAFile) as -> by (by apply dec_stable).
    rewrite IH. by destruct st.
Qed.

(** X1. Entries of the directory that are not regular files play no part:
    the run ends as it would on the listing without them. *)
Theorem directories_ignored b w :
  same_effect (ingest b w)
    (ingest b (with_listing (filter isfile (DATA_DIR w)) w)).
Proof.
  unfold ingest, with_listing; simpl. rewrite scan_files_isfile.
  destruct (scan_files _ _) as [[db' docs]|e]; [|done].
  destruct docs as [|d docs]; [done|]. by destruct b.
Qed.

(** X2. After a run that ends normally the keys of the ledger file are
    the keys it had before and the hashes of all chunks of all files of the
    directory, and no other. *)
Theorem ledger_keys b w docs h :
  (ingest b w).2 = Done docs →
  h ∈ dom (ledger (ingest b w).1) ↔
  h ∈ dom (ledger w)
  ∨ ∃ f t c, (f, TextFile t) ∈ DATA_DIR w ∧ c ∈ split_text t
             ∧ h = MD5.hexdigest c.
Proof.
  intros Hd.
  destruct (ingest b w) as [w' r] eqn:Hrun; simpl in Hd; subst r.
  apply ingest_Done in Hrun as (_ & _ & ->). unfold ledger at 1; simpl.
  rewrite dom_recorded, elem_of_union, elem_of_list_to_set, list_elem_of_fmap.
  apply or_iff_compat_l. split.
  - intros (d & -> & (t & Hf & Hc)%elem_of_all_chunks).
    by exists (source d), t, (page_content d).
  - intros (f & t & c & Hf & Hc & ->). exists (doc c f). split; [done|].
    apply elem_of_all_chunks. by exists t.
Qed.


(** X3. Every entry a run adds to the ledger names a file of the
    directory: a chunk of that file has the entry's hash, and that chunk is
    in the batch handed to the store. *)
Theorem new_entries_attributed b w docs h f :
  (ingest b w).2 = Done docs →
  ledger (ingest b w).1 !! h = Some f →
  ledger w !! h = None →
  ∃ t c, (f, TextFile t) ∈ DATA_DIR w ∧ c ∈ split_text t
         ∧ MD5.hexdigest c = h ∧ doc c f ∈ docs.
Proof.
  intros Hd Hnew Hold.
  destruct (ingest b w) as [w' r] eqn:Hrun; simpl in Hd; subst r.
  apply ingest_Done in Hrun as (_ & -> & ->). unfold ledger at 1 in Hnew.
  simpl in Hnew.
  apply recorded_lookup in Hnew as [Hin|(_ & d & Hd & <- & <-)]; [congruence|].
  pose proof (elem_of_sublist _ _ _ Hd (marked_sublist _ _)) as Hcs.
  apply elem_of_all_chunks in Hcs as (t & Hf & Hc).
  exists t, (page_content d). split_and!; [done..|]. by destruct d.
Qed.

Lemma size_recorded db cs :
  size (recorded db cs) = size db + length (marked db cs).
Proof.
  revert db; induction cs as [|c cs IH]; intros db.
  { rewrite recorded_nil, marked_nil. simpl. lia. }
  rewrite recorded_cons, marked_cons.
  destruct (db !! chunk_hash c) eqn:Hdb; [apply IH|].
  rewrite IH, map_size_insert_None by done. simpl. lia.
Qed.

(** X4. A run that ends normally adds exactly one ledger entry per
    marked chunk: the ledger grows by the number of chunks the run reports
    as ingested. *)
Theorem ledger_growth b w docs :
  (ingest b w).2 = Done docs →
  size (ledger (ingest b w).1) = size (ledger w) + length docs.
Proof.
  intros Hd.
  destruct (ingest b w) as [w' r] eqn:Hrun; simpl in Hd; subst r.
  apply ingest_Done in Hrun as (_ & -> & ->). apply size_recorded.
Qed.

Lemma elem_of_marked_hashes db cs h :
  h ∈ chunk_hash <$> marked db cs ↔ db !! h = None ∧ h ∈ chunk_hash <$> cs.
Proof.
  rewrite !list_elem_of_fmap. split.
  - intros (d & -> & Hd). split; [by eapply marked_fresh|].
    exists d. split; [done|].
    eapply elem_of_sublist; [done|apply marked_sublist].
  - intros (Hnew & c & -> & Hc).
    destruct (marked_complete db cs c Hc Hnew) as (d & Hd & Hh). eauto.
Qed.

Lemma marked_hashes_Permutation db cs1 cs2 :
  cs1 ≡ₚ cs2 → chunk_hash <$> marked db cs1 ≡ₚ chunk_hash <$> marked db cs2.
Proof.
  intros Hp. apply NoDup_Permutation; [apply marked_NoDup..|].
  intros h. rewrite !elem_of_marked_hashes. by rewrite Hp.
Qed.

Lemma ingest_normal b w :
  Forall readable (DATA_DIR w) →
  marked (ledger w) (all_chunks (DATA_DIR w)) = [] ∨ b = Accepts →
  ingest b w =
    ({| DATA_DIR := DATA_DIR w;
        HASH_DB_PATH := Some (recorded (ledger w) (all_chunks (DATA_DIR w)));
        collection :=
          collection w ++ marked (ledger w) (all_chunks (DATA_DIR w)) |},
     Done (marked (ledger w) (all_chunks (DATA_DIR w)))).
Proof.
  intros Hr Hcase. rewrite ingest_readable by done. simpl.
  destruct (marked (ledger w) (all_chunks (DATA_DIR w))) as [|d ds].
  - by rewrite app_nil_r.
  - by destruct Hcase as [?| ->].
Qed.

Lemma ingest_Done_store b w docs :
  (ingest b w).2 = Done docs → docs = [] ∨ b = Accepts.
Proof.
  intros Hd.
  destruct (ingest b w) as [w' r] eqn:Hrun; simpl in Hd; subst r.
  apply ingest_Done in Hrun as Hdone. destruct Hdone as (Hr & Hdocs & _).
  rewrite ingest_readable in Hrun by done. simpl in Hrun.
  rewrite <- Hdocs in Hrun. destruct docs as [|d ds]; [by left|].
  destruct b; [by right|done].
Qed.

(** X5. The order in which the directory is listed decides neither
    whether the run ends normally, nor the keys of the ledger it writes, nor
    the hashes of the chunks it hands to the store: these are the same, up
    to order, for every listing of the same entries. *)
Theorem listing_order_irrelevant b w docs listing :
  (ingest b w).2 = Done docs →
  listing ≡ₚ DATA_DIR w →
  ∃ docs',
    (ingest b (with_listing listing w)).2 = Done docs'
    ∧ chunk_hash <$> docs' ≡ₚ chunk_hash <$> docs
    ∧ dom (ledger (ingest b (with_listing listing w)).1)
      = dom (ledger (ingest b w).1).
Proof.
  intros Hd Hperm. pose proof (ingest_Done_store _ _ _ Hd) as Hstore.
  destruct (ingest b w) as [w' r] eqn:Hrun; simpl in Hd; subst r.
  apply ingest_Done in Hrun as (Hr & Hdocs & ->).
  set (w2 := with_listing listing w).
  assert (Forall readable (DATA_DIR w2)) as Hr2 by (simpl; by rewrite Hperm).
  pose proof (all_chunks_Permutation _ _ Hperm) as Hcs.
  pose proof (marked_hashes_Permutation (ledger w) _ _ Hcs) as Hm.
  rewrite <- Hdocs in Hm.
  rewrite (ingest_normal b w2 Hr2).
  - exists (marked (ledger w) (all_chunks listing)). simpl.
    split_and!; [done..|].
    change (dom (recorded (ledger w) (all_chunks listing))
            = dom (recorded (ledger w) (all_chunks (DATA_DIR w)))).
    rewrite !dom_recorded. apply set_eq. intros h.
    rewrite !elem_of_union, !elem_of_list_to_set. by rewrite Hcs.
  - destruct Hstore as [->|Hb]; [left|by right].
    apply Permutation_length in Hm. simpl in Hm.
    rewrite length_fmap in Hm. by apply nil_length_inv.
Qed.

Lemma scan_files_Raise st listing e :
  scan_files st listing = Raise e → ∃ f, e = LoadError f.
Proof.
  revert st; induction listing as [|[f entry] rest IH]; intros st; [done|].
  simpl. destruct entry as [|t|].
  - rewrite (process_entry_readable st (f, NotAFile)) by done. apply IH.
  - rewrite (process_entry_readable st (f, TextFile t)) by done. apply IH.
  - destruct st. intros [= <-]. by exists f.
Qed.

Lemma ingest_StoreError b w :
  (ingest b w).2 = Raise StoreError →
  Forall readable (DATA_DIR w)
  ∧ marked (ledger w) (all_chunks (DATA_DIR w)) ≠ []
  ∧ ∃ n, b = FailsAfter n.
Proof.
  intros Hres.
  assert (Forall readable (DATA_DIR w)) as Hr.
  { unfold ingest in Hres.
    destruct (scan_files _ (DATA_DIR w)) as [st|e] eqn:Hs.
    - by eapply scan_files_Done.
    - apply scan_files_Raise in Hs as [f ->]. done. }
  split; [done|]. rewrite ingest_readable in Hres by done. simpl in Hres.
  destruct (marked (ledger w) (all_chunks (DATA_DIR w))) as [|d ds]; [done|].
  split; [done|]. destruct b as [|n]; [done|]. by exists n.
Qed.

(** X6. When the batch add raises after the store has kept the first [n]
    documents, the ledger file is not written, so the next run marks the
    whole batch again: once the store accepts it, the collection holds the
    first [n] documents of the batch twice. *)
Theorem retry_after_store_failure n w :
  (ingest (FailsAfter n) w).2 = Raise StoreError →
  let w1 := (ingest (FailsAfter n) w).1 in
  ∃ docs,
    docs ≠ []
    ∧ HASH_DB_PATH w1 = HASH_DB_PATH w
    ∧ (ingest Accepts w1).2 = Done docs
    ∧ collection (ingest Accepts w1).1 = collection w ++ take n docs ++ docs.
Proof.
  intros Hres. apply ingest_StoreError in Hres as (Hr & Hne & _).
  rewrite (ingest_readable (FailsAfter n)) by done. simpl.
  destruct (marked (ledger w) (all_chunks (DATA_DIR w))) as [|d ds] eqn:Hm;
    [done|]. simpl.
  set (w1 := {| DATA_DIR := DATA_DIR w; HASH_DB_PATH := HASH_DB_PATH w;
                collection := collection w ++ take n (d :: ds) |}).
  pose proof (ingest_normal Accepts w1 Hr (or_intror eq_refl)) as Hretry.
  change (ledger w1) with (ledger w) in Hretry.
  change (DATA_DIR w1) with (DATA_DIR w) in Hretry.
  rewrite Hm in Hretry. rewrite Hretry. simpl.
  exists (d :: ds). split_and!; [done..|]. by rewrite <- app_assoc.
Qed.


(** X8. Whatever the outcome of a run, the collection keeps every record
    it had, in place; what the run appends are chunks of the files of the
    directory, in the order the files are listed and split, none of which
    had its hash in the ledger the run loaded. *)
Theorem collection_only_grows b w :
  ∃ added,
    collection (ingest b w).1 = collection w ++ added
    ∧ added `sublist_of` all_chunks (DATA_DIR w)
    ∧ Forall (λ d, ledger w !! chunk_hash d = None) added.
Proof.
  assert (∀ k, take k (marked (ledger w) (all_chunks (DATA_DIR w)))
               `sublist_of` marked (ledger w) (all_chunks (DATA_DIR w)))
    as Htake by (intros k; apply sublist_take).
  assert (∀ added,
            added `sublist_of` marked (ledger w) (all_chunks (DATA_DIR w)) →
            added `sublist_of` all_chunks (DATA_DIR w)
            ∧ Forall (λ d, ledger w !! chunk_hash d = None) added) as Hsub.
  { intros added Hadded. split.
    - etrans; [done|apply marked_sublist].
    - apply Forall_forall. intros d Hd. eapply marked_fresh.
      by eapply elem_of_sublist. }
  destruct (ingest b w) as [w' [docs|e]] eqn:Hrun; simpl.
  - apply ingest_Done in Hrun as (_ & -> & ->). simpl.
    eexists. split; [done|]. by apply Hsub.
  - apply ingest_Raise in Hrun as (_ & _ & k & ->).
    eexists. split; [done|]. apply Hsub, Htake.
Qed.

End MoreIngest.

(** ** The keys of the ledger *)

Lemma length_le_bytes n x : length (MD5.le_bytes n x) = n.
Proof. revert x; induction n as [|n IH]; intros x; simpl; [done|]. by rewrite IH. Qed.

Lemma le_bytes_bound n x : Forall (λ b, (b < 256)%N) (MD5.le_bytes n x).
Proof.
  revert x; induction n as [|n IH]; intros x; simpl; constructor; [|apply IH].
  by apply N.mod_lt.
Qed.

Lemma digest_bytes s :
  length (MD5.digest s) = 16 ∧ Forall (λ b, (b < 256)%N) (MD5.digest s).
Proof.
  unfold MD5.digest. destruct (foldl _ _ _) as [[[a b] c] d]. split.
  - by rewrite !length_app, !length_le_bytes.
  - rewrite !Forall_app. split_and!; apply le_bytes_bound.
Qed.

Lemma hex_digit_hexdigits n : (n < 16)%N → MD5.hex_digit n ∈ hexdigits.
Proof.
  intros Hn.
  assert (Forall (λ k, MD5.hex_digit (N.of_nat k) ∈ hexdigits) (seq 0 16))
    as Hall.
  { unfold hexdigits. repeat (constructor; [vm_compute; by repeat constructor|]).
    constructor. }
  rewrite Forall_forall in Hall. rewrite <- (N2Nat.id n).
  apply Hall, elem_of_seq. lia.
Qed.

Lemma hex_spec bs :
  Forall (λ b, (b < 256)%N) bs →
  String.length (MD5.hex bs) = 2 * length bs
  ∧ Forall (.∈ hexdigits) (list_ascii_of_string (MD5.hex bs)).
Proof.
  induction 1 as [|b bs Hb _ [IHl IHc]]; simpl; [by split|].
  split; [lia|].
  apply Forall_cons. split; [|apply Forall_cons; split; [|done]].
  - apply hex_digit_hexdigits, N.Div0.div_lt_upper_bound. lia.
  - by apply hex_digit_hexdigits, N.mod_lt.
Qed.

Lemma chunk_hash_format c :
  String.length (chunk_hash c) = 32
  ∧ Forall (.∈ hexdigits) (list_ascii_of_string (chunk_hash c)).
Proof.
  unfold chunk_hash, MD5.hexdigest.
  destruct (digest_bytes (page_content c)) as [Hlen Hb].
  destruct (hex_spec _ Hb) as [Hl Hc]. rewrite Hlen in Hl. done.
Qed.

(** X9. Every key a run adds to the ledger is a digest in the form
    [hexdigest()] gives it: 32 characters, each one of [0-9a-f]. *)
Theorem new_keys_are_hex_digests `{Splitter} b w h :
  h ∈ dom (ledger (ingest b w).1) →
  h ∉ dom (ledger w) →
  String.length h = 32 ∧ Forall (.∈ hexdigits) (list_ascii_of_string h).
Proof.
  intros Hnew Hold.
  destruct (ingest b w) as [w' [docs|e]] eqn:Hrun; simpl in Hnew.
  - apply ingest_Done in Hrun as (_ & _ & ->).
    unfold ledger at 1 in Hnew; simpl in Hnew.
    rewrite dom_recorded in Hnew.
    apply elem_of_union in Hnew as [?|Hc]; [done|].
    apply elem_of_list_to_set, list_elem_of_fmap in Hc as (d & -> & _).
    apply chunk_hash_format.
  - apply ingest_Raise in Hrun as (_ & Hl & _).
    unfold ledger in Hnew, Hold. by rewrite Hl in Hnew.
Qed.

Lemma fresh_world_run :
  (@ingest FixedWindow.splitter Accepts fresh_world).2
  = Done [doc "hello world" "a.txt"].
Proof. vm_compute. reflexivity. Qed.

Lemma hello_world_chunks :
  @split_text FixedWindow.splitter "hello world" = ["hello world"].
Proof. vm_compute. reflexivity. Qed.

Lemma ledger_keys_witness :
  "5eb63bbbe01eeed093cb22bb8f5acdc3"
    ∈ dom (ledger (@ingest FixedWindow.splitter Accepts fresh_world).1).
Proof.
  apply (proj2 (@ledger_keys FixedWindow.splitter Accepts fresh_world _
                  "5eb63bbbe01eeed093cb22bb8f5acdc3" fresh_world_run)).
  right. exists "a.txt", "hello world", "hello world". split; [left|].
  split; [rewrite hello_world_chunks; left|vm_compute; reflexivity].
Defined.

Lemma new_entries_attributed_witness :
  ∃ t c, ("a.txt", TextFile t) ∈ DATA_DIR fresh_world
         ∧ c ∈ @split_text FixedWindow.splitter t
         ∧ MD5.hexdigest c = "5eb63bbbe01eeed093cb22bb8f5acdc3"
         ∧ doc c "a.txt" ∈ [doc "hello world" "a.txt"].
Proof.
  apply (@new_entries_attributed FixedWindow.splitter Accepts fresh_world).
  - exact fresh_world_run.
  - vm_compute. reflexivity.
  - vm_compute. reflexivity.
Defined.

Lemma ledger_growth_witness :
  size (ledger (@ingest FixedWindow.splitter Accepts fresh_world).1)
  = size (ledger fresh_world) + 1.
Proof.
  apply (@ledger_growth FixedWindow.splitter Accepts fresh_world
           [doc "hello world" "a.txt"] fresh_world_run).
Defined.

Lemma listing_order_irrelevant_witness :
  ∃ docs',
    (@ingest FixedWindow.splitter Accepts
       (with_listing (reverse (DATA_DIR mixed_world)) mixed_world)).2
    = Done docs'
    ∧ chunk_hash <$> docs'
      ≡ₚ chunk_hash <$> [doc "hello world" "a.txt"; doc "bonjour" "b.txt"]
    ∧ dom (ledger (@ingest FixedWindow.splitter Accepts
                     (with_listing (reverse (DATA_DIR mixed_world))
                        mixed_world)).1)
      = dom (ledger (@ingest FixedWindow.splitter Accepts mixed_world).1).
Proof.
  apply (@listing_order_irrelevant FixedWindow.splitter Accepts mixed_world).
  - vm_compute. reflexivity.
  - apply reverse_Permutation.
Defined.

Lemma retry_after_store_failure_witness :
  ∃ docs,
    docs ≠ []
    ∧ HASH_DB_PATH (@ingest FixedWindow.splitter (FailsAfter 1) fresh_world).1
      = HASH_DB_PATH fresh_world
    ∧ (@ingest FixedWindow.splitter Accepts
         (@ingest FixedWindow.splitter (FailsAfter 1) fresh_world).1).2
      = Done docs
    ∧ collection
        (@ingest FixedWindow.splitter Accepts
           (@ingest FixedWindow.splitter (FailsAfter 1) fresh_world).1).1
      = collection fresh_world ++ take 1 docs ++ docs.
Proof.
  apply (@retry_after_store_failure FixedWindow.splitter 1 fresh_world).
  vm_compute. reflexivity.
Defined.


Lemma new_keys_are_hex_digests_witness :
  String.length "5eb63bbbe01eeed093cb22bb8f5acdc3" = 32
  ∧ Forall (.∈ hexdigits)
      (list_ascii_of_string "5eb63bbbe01eeed093cb22bb8f5acdc3").
Proof.
  apply (@new_keys_are_hex_digests FixedWindow.splitter Accepts fresh_world).
  - exact ledger_keys_witness.
  - apply not_elem_of_empty.
Defined.

(** * Further properties of the query service *)

Section MoreApi.
Context `{Backends}.

(** X10. A request that has the parameter [q] is answered 500 exactly
    when the similarity search raises, or the language model raises on the
    assembled prompt; nothing the backends raise is turned into an answer. *)
Theorem server_error_iff q :
  (get_query (Some q)).2 = InternalServerError ↔
  (∃ e, similarity_search q 3 = Raise e)
  ∨ (∃ docs e,
       similarity_search q 3 = Done docs
       ∧ generate (default "llama3" OLLAMA_MODEL) (assembled_prompt docs q) []
         = Raise e).
Proof.
  rewrite get_query_Some.
  destruct (similarity_search q 3) as [docs|e]; simpl.
  - destruct (generate _ _ _) as [answer|e] eqn:Hgen.
    + split; [done|]. intros [[e [=]]|(docs' & e & [= <-] & Hg)].
      congruence.
    + split; [|done]. intros _. right. by exists docs, e.
  - split; [|done]. intros _. left. by exists e.
Qed.

(** X11. A request that has the parameter [q] makes one similarity
    search, for [q] as received and three neighbours, and nothing before
    it; only when the search returns does it make a generation call, a
    single one, on the prompt assembled from the returned documents and
    [q], to the model named by [OLLAMA_MODEL] or else [llama3]. *)
Theorem request_calls q :
  (get_query (Some q)).1 =
    SimilaritySearch q 3 ::
      match similarity_search q 3 with
      | Done docs =>
          [Generate (default "llama3" OLLAMA_MODEL)
             (assembled_prompt docs q) []]
      | Raise _ => []
      end.
Proof.
  rewrite get_query_Some. by destruct (similarity_search q 3).
Qed.

End MoreApi.

(** * The collection set-up *)

Lemma setup_present (server : gmap string CollectionInfo) :
  COLLECTION_NAME ∈ dom server → create_collection_if_missing server = server.
Proof. intros Hin. unfold create_collection_if_missing. by rewrite decide_True. Qed.

Lemma setup_missing (server : gmap string CollectionInfo) :
  COLLECTION_NAME ∉ dom server →
  create_collection_if_missing server
  = <[COLLECTION_NAME := {| vectors_size := 384; vectors_distance := COSINE;
                            points := [] |}]> server.
Proof. intros Hout. unfold create_collection_if_missing. by rewrite decide_False. Qed.

(** X12. The set-up of the collection never drops or alters a collection
    of the server, whatever its vector parameters: afterwards the
    [documents] collection is the one that was there, or a new empty one
    for 384-dimensional cosine vectors when there was none, and running the
    set-up again changes nothing. *)
Theorem setup_keeps_collections (server : gmap string CollectionInfo) :
  server ⊆ create_collection_if_missing server
  ∧ create_collection_if_missing server !! COLLECTION_NAME
    = Some (default {| vectors_size := 384; vectors_distance := COSINE;
                       points := [] |} (server !! COLLECTION_NAME))
  ∧ create_collection_if_missing (create_collection_if_missing server)
    = create_collection_if_missing server.
Proof.
  destruct (decide (COLLECTION_NAME ∈ dom server)) as [Hin|Hout].
  - rewrite !setup_present by done.
    apply elem_of_dom in Hin as [info Hinfo]. by rewrite Hinfo.
  - rewrite (setup_missing server) by done.
    apply not_elem_of_dom in Hout as Hnone. rewrite Hnone. split_and!.
    + by apply insert_subseteq.
    + by rewrite lookup_insert_eq.
    + apply setup_present. rewrite dom_insert_L. set_solver.
Qed.
